(** * mediagoblin_rdfa: RDFa projection of embedded RDF metadata

    A shallow embedding of [src/mediagoblin_rdfa/__init__.py]:
    - [ResourceProperty] and [ResourceProperties] (the property projector),
    - [get_display_properties], [get_tech_properties], [get_sources],
    - [rdf_properties] (the provenance resolver, with its source-link walk),
    - the part of [add_remix_to_context] that reads the resolver's result.

    The RDF parser and the vocabulary module of the external RDFMetadata
    library are collaborators: a parsed graph block is a list of resources in
    the parser's iteration order, a predicate object is one of the three node
    kinds, and the term lookup is a function returning [None] where the
    library raises [LookupError]. *)

From Stdlib Require Import String Ascii List Bool Arith Lia.
Import ListNotations.
Open Scope string_scope.
Open Scope list_scope.

(** ** The parsed graph (external RDF model) *)

(** A predicate object: blank node, literal node with its value, or
    resource node with its URI. *)
Inductive Node :=
| BlankNode
| LiteralNode (value : string)
| ResourceNode (uri : string).

(** A predicate edge: its URI as namespace URI and local name, and its object. *)
Record Predicate := mkPredicate {
  pred_ns : string;
  pred_local : string;
  pred_object : Node
}.

(** [str(pred.uri)]: the namespace URI followed by the local name. *)
Definition pred_uri_str (p : Predicate) : string := String.append (pred_ns p) (pred_local p).

(** A resource of a parsed graph: its subject URI and its predicates. *)
Record Resource := mkResource {
  res_uri : string;
  predicates : list Predicate
}.

(** One parsed [rdf:RDF] block: the values of the parser's root mapping, in
    the order [root.itervalues()] yields them (subject URIs are its keys). *)
Definition Graph := list Resource.

(** A resource node of a graph is the graph's resource of that URI: its
    predicates are those of the block it was parsed in (none if the block
    does not describe it). *)
Fixpoint lookup_predicates (g : Graph) (uri : string) : list Predicate :=
  match g with
  | [] => []
  | r :: rest => if String.eqb (res_uri r) uri then predicates r
                 else lookup_predicates rest uri
  end.

(** ** Vocabulary term URIs (RDFMetadata's [vocab] module) *)

Definition dc_ns := "http://purl.org/dc/elements/1.1/".
Definition dcterms_ns := "http://purl.org/dc/terms/".
Definition cc_ns := "http://creativecommons.org/ns#".
Definition xhtml_ns := "http://www.w3.org/1999/xhtml/vocab#".
Definition rdf_ns := "http://www.w3.org/1999/02/22-rdf-syntax-ns#".

Definition dc_title := String.append dc_ns "title".
Definition dcterms_title := String.append dcterms_ns "title".
Definition cc_attributionURL := String.append cc_ns "attributionURL".
Definition cc_attributionName := String.append cc_ns "attributionName".
Definition dcterms_license := String.append dcterms_ns "license".
Definition cc_license := String.append cc_ns "license".
Definition xhtml_license := String.append xhtml_ns "license".
Definition rdf_type := String.append rdf_ns "type".
Definition dc_type := String.append dc_ns "type".
Definition dcterms_type := String.append dcterms_ns "type".
Definition dc_format := String.append dc_ns "format".
Definition dcterms_format := String.append dcterms_ns "format".
Definition dc_source := String.append dc_ns "source".
Definition dcterms_source := String.append dcterms_ns "source".

(** ** Static tables of the module *)

Definition license_labels : list (string * string) := [
  ("http://creativecommons.org/licenses/by/3.0/", "CC BY 3.0");
  ("http://creativecommons.org/licenses/by-nc/3.0/", "CC BY-NC 3.0");
  ("http://creativecommons.org/licenses/by-nc-nd/3.0/", "CC BY-NC-ND 3.0");
  ("http://creativecommons.org/licenses/by-nc-sa/3.0/", "CC BY-NC-SA 3.0");
  ("http://creativecommons.org/licenses/by-nd/3.0/", "CC BY-ND 3.0");
  ("http://creativecommons.org/licenses/by-sa/3.0/", "CC BY-SA 3.0")
].

Fixpoint assoc_get (k : string) (l : list (string * string)) : option string :=
  match l with
  | [] => None
  | (k', v) :: rest => if String.eqb k k' then Some v else assoc_get k rest
  end.

(** [license_labels.get(key, None)]; the key may be [None] (no resource). *)
Definition license_labels_get (key : option string) : option string :=
  match key with
  | Some k => assoc_get k license_labels
  | None => None
  end.

Definition header_properties : list string :=
  [dc_title; dcterms_title; cc_attributionURL; cc_attributionName;
   dcterms_license; cc_license; xhtml_license].

Definition tech_properties : list string :=
  [rdf_type; dc_type; dcterms_type; dc_format; dcterms_format].

Definition source_properties : list string := [dc_source; dcterms_source].

(** Python's [x in l] on a list of strings. *)
Definition str_in (x : string) (l : list string) : bool :=
  existsb (String.eqb x) l.

(** Python truthiness of an optional string: [None] and [""] are false. *)
Definition str_truthy (o : option string) : bool :=
  match o with
  | Some (String _ _) => true
  | _ => false
  end.

(** ** ResourceProperty and ResourceProperties *)

Record ResourceProperty := mkResourceProperty {
  rp_uri : string;
  rp_label : option string;
  rp_content : option string;
  rp_resource : option string;
  rp_rel : option string
}.

(** [p.content = value] on a [ResourceProperty] object. *)
Definition set_content (p : ResourceProperty) (c : option string) : ResourceProperty :=
  mkResourceProperty (rp_uri p) (rp_label p) c (rp_resource p) (rp_rel p).

(** A [ResourceProperties] object.  [title] and [license] are references to
    objects of the [properties] list (the source assigns them the very objects
    [find_property] returns): they are kept as positions in that list, so the
    license backfill, which mutates the license object, is seen through the
    list as well.  [attribution] is a fresh object. *)
Record ResourceProperties := mkResourceProperties {
  subject_uri : string;
  properties : list ResourceProperty;
  sources : list Node;
  title : option nat;
  attribution : option ResourceProperty;
  license : option nat
}.

(** [l[i] = x] on a Python list (positions inside the list only). *)
Fixpoint set_nth {A : Type} (i : nat) (x : A) (l : list A) : list A :=
  match l, i with
  | [], _ => []
  | _ :: rest, 0 => x :: rest
  | y :: rest, S j => y :: set_nth j x rest
  end.

(** [find_property]: the first property of that URI. *)
Fixpoint find_property (uri : string) (ps : list ResourceProperty)
  : option ResourceProperty :=
  match ps with
  | [] => None
  | p :: rest => if String.eqb uri (rp_uri p) then Some p else find_property uri rest
  end.

(** The position of the object [find_property] returns. *)
Fixpoint find_index (uri : string) (ps : list ResourceProperty) : option nat :=
  match ps with
  | [] => None
  | p :: rest => if String.eqb uri (rp_uri p) then Some 0
                 else option_map S (find_index uri rest)
  end.

Definition node_content (n : Node) : option string :=
  match n with LiteralNode v => Some v | _ => None end.

Definition node_resource (n : Node) : option string :=
  match n with ResourceNode u => Some u | _ => None end.

Definition deref (ps : list ResourceProperty) (r : option nat) : option ResourceProperty :=
  match r with Some i => nth_error ps i | None => None end.

Section Projector.

(** [vocab.get_term(ns_uri, local_name).label]; [None] where it raises
    [LookupError]. *)
Variable get_term : string -> string -> option string.

(** The [ResourceProperty] built for one non-blank predicate. *)
Definition project_predicate (pred : Predicate) : ResourceProperty :=
  let uri := pred_uri_str pred in
  let label := match get_term (pred_ns pred) (pred_local pred) with
               | Some l => l
               | None => pred_uri_str pred
               end in
  let content := node_content (pred_object pred) in
  let resource := node_resource (pred_object pred) in
  mkResourceProperty uri (Some label) content resource None.

(** The [for pred in res.predicates] loop of [__init__]: the [properties] and
    [sources] lists it appends to, in order. *)
Fixpoint init_loop (preds : list Predicate) : list ResourceProperty * list Node :=
  match preds with
  | [] => ([], [])
  | pred :: rest =>
      let '(ps, ss) := init_loop rest in
      match pred_object pred with
      | BlankNode => (ps, ss)
      | obj =>
          let p := project_predicate pred in
          (p :: ps,
           if str_in (pred_uri_str pred) source_properties then obj :: ss else ss)
      end
  end.

Definition choose_title (ps : list ResourceProperty) : option nat :=
  match find_index dc_title ps with
  | Some i => Some i
  | None => find_index dcterms_title ps
  end.

Definition choose_attribution (ps : list ResourceProperty) : option ResourceProperty :=
  match find_property cc_attributionURL ps, find_property cc_attributionName ps with
  | Some url, Some name =>
      Some (mkResourceProperty cc_attributionName (Some "Attribution")
              (rp_content name) (rp_resource url) (Some cc_attributionURL))
  | _, _ => None
  end.

Definition choose_license (ps : list ResourceProperty) : option nat :=
  match find_index dcterms_license ps with
  | Some i => Some i
  | None =>
      match find_index cc_license ps with
      | Some i => Some i
      | None => find_index xhtml_license ps
      end
  end.

(** [if self.license and not self.license.content:
       self.license.content = license_labels.get(self.license.resource, None)] *)
Definition license_backfill (lic : option nat) (ps : list ResourceProperty)
  : list ResourceProperty :=
  match lic with
  | Some i =>
      match nth_error ps i with
      | Some l =>
          if negb (str_truthy (rp_content l))
          then set_nth i (set_content l (license_labels_get (rp_resource l))) ps
          else ps
      | None => ps
      end
  | None => ps
  end.

(** [ResourceProperties(res)]. *)
Definition make_ResourceProperties (res : Resource) : ResourceProperties :=
  let '(ps, srcs) := init_loop (predicates res) in
  let t := choose_title ps in
  let a := choose_attribution ps in
  let l := choose_license ps in
  mkResourceProperties (res_uri res) (license_backfill l ps) srcs t a l.

End Projector.

(** The objects [self.title] and [self.license] refer to, as callers see them. *)
Definition title_prop (r : ResourceProperties) : option ResourceProperty :=
  deref (properties r) (title r).

Definition license_prop (r : ResourceProperties) : option ResourceProperty :=
  deref (properties r) (license r).

Definition opt_list {A : Type} (o : option A) : list A :=
  match o with Some x => [x] | None => [] end.

Definition get_display_properties (r : ResourceProperties) : list ResourceProperty :=
  let ps := properties r in
  opt_list (title_prop r)
  ++ (match attribution r with
      | Some a => [a]
      | None => opt_list (find_property cc_attributionURL ps)
                ++ opt_list (find_property cc_attributionName ps)
      end)
  ++ opt_list (license_prop r)
  ++ filter (fun p => negb (str_in (rp_uri p) header_properties)
                      && negb (str_in (rp_uri p) tech_properties)) ps.

Definition get_tech_properties (r : ResourceProperties) : list ResourceProperty :=
  filter (fun p => str_in (rp_uri p) tech_properties) (properties r).

Definition get_sources (r : ResourceProperties) : list Node := sources r.

(** ** The provenance resolver *)

(** Exceptions the resolver and its caller can raise. *)
Inductive PyError := AttributeError | IndexError.

Inductive Outcome (A : Type) :=
| Ok (a : A)
| Raise (e : PyError).
Arguments Ok {A} a.
Arguments Raise {A} e.

(** [uri == "" or str(uri)[0] == "#"]. *)
Definition is_about_image (uri : string) : bool :=
  match uri with
  | EmptyString => true
  | String c _ => Ascii.eqb c "#"
  end.

(** [s.uri] on a node taken from a [sources] list: only a resource node has a
    URI; a literal node (a literal-valued [dc:source]) has none. *)
Definition node_uri (s : Node) : Outcome string :=
  match s with
  | ResourceNode u => Ok u
  | _ => Raise AttributeError
  end.

(** The dedup dictionary [source_props], as its (key, value) entries in the
    order they were inserted.  Python 2's [dict] keeps no insertion order, so
    only the set of entries of this list is a statement about the code. *)
Definition SourceProps := list (string * ResourceProperties).

Definition key_in (k : string) (d : SourceProps) : bool :=
  existsb (fun e => String.eqb k (fst e)) d.

(** The state of the [while source_res] loop. *)
Record WalkState := mkWalkState {
  source_res : list Node;
  source_props : SourceProps
}.

Inductive WalkStep :=
| WalkDone
| WalkRaise (e : PyError)
| WalkNext (st : WalkState).

Section Resolver.

Variable get_term : string -> string -> option string.

(** [ResourceProperties(s)] for a resource node [s] of block [g]. *)
Definition project_node (g : Graph) (u : string) : ResourceProperties :=
  make_ResourceProperties get_term (mkResource u (lookup_predicates g u)).

(** One iteration of the [while source_res] loop of block [g]. *)
Definition walk_iter (g : Graph) (st : WalkState) : WalkStep :=
  match source_res st with
  | [] => WalkDone
  | s :: rest =>
      match node_uri s with
      | Raise e => WalkRaise e
      | Ok u =>
          if is_about_image u || key_in u (source_props st)
          then WalkNext (mkWalkState rest (source_props st))
          else
            let props := project_node g u in
            WalkNext (mkWalkState (rest ++ get_sources props)
                                  (source_props st ++ [(u, props)]))
      end
  end.

(** The loop run for at most [fuel] iterations ([None]: fuel exhausted). *)
Fixpoint drain (fuel : nat) (g : Graph) (st : WalkState)
  : option (Outcome WalkState) :=
  match fuel with
  | 0 => None
  | S f =>
      match walk_iter g st with
      | WalkDone => Some (Ok st)
      | WalkRaise e => Some (Raise e)
      | WalkNext st' => drain f g st'
      end
  end.

(** The resources of a block that are about this image, projected, in the
    block's iteration order. *)
Definition block_work (g : Graph) : list ResourceProperties :=
  map (make_ResourceProperties get_term)
      (filter (fun r => is_about_image (res_uri r)) g).

(** The [for rdf in rdfs] loop; each block's walk gets [fuel] iterations. *)
Fixpoint process_blocks (fuel : nat) (blocks : list Graph)
         (work : list ResourceProperties) (sp : SourceProps)
  : option (Outcome (list ResourceProperties * SourceProps)) :=
  match blocks with
  | [] => Some (Ok (work, sp))
  | g :: rest =>
      let w := block_work g in
      match drain fuel g (mkWalkState (concat (map get_sources w)) sp) with
      | None => None
      | Some (Raise e) => Some (Raise e)
      | Some (Ok st) => process_blocks fuel rest (work ++ w) (source_props st)
      end
  end.

(** [rdf_properties(doc)], the document given as its parsed [rdf:RDF] blocks
    in document order.  [Ok None] is the [(None, None)] sentinel, and
    [Ok (Some (work_props, source_props.values()))] the pair of lists. *)
Definition rdf_properties (fuel : nat) (doc : list Graph)
  : option (Outcome (option (list ResourceProperties * list ResourceProperties))) :=
  match doc with
  | [] => Some (Ok None)
  | _ =>
      match process_blocks fuel doc [] [] with
      | None => None
      | Some (Raise e) => Some (Raise e)
      | Some (Ok (work, sp)) => Some (Ok (Some (work, map snd sp)))
      end
  end.

End Resolver.

(** [work_props[0].properties.extend(p.properties)] for [p] in [work_props[1:]]. *)
Definition merge_work (w0 : ResourceProperties) (rest : list ResourceProperties)
  : ResourceProperties :=
  mkResourceProperties (subject_uri w0)
    (properties w0 ++ concat (map properties rest))
    (sources w0) (title w0) (attribution w0) (license w0).

(** What [add_remix_to_context] does with the resolver's result: [Ok None]
    when it injects nothing, [Ok (Some (work_metadata, source_metadata))] when
    it injects the two keys. *)
Definition add_remix_to_context
  (res : option (list ResourceProperties * list ResourceProperties))
  : Outcome (option (ResourceProperties * list ResourceProperties)) :=
  match res with
  | None => Ok None
  | Some (work_props, source_props) =>
      match work_props, source_props with
      | [], [] => Ok None
      | [], _ :: _ => Raise IndexError
      | w0 :: rest, _ => Ok (Some (merge_work w0 rest, source_props))
      end
  end.

(** ** Scenarios *)

(** Two blocks forming a source cycle: block A's work resource (subject
    [""]) has [dc:source] pointing at [x]; block B describes [x], whose
    [dc:source] points back at [""]. *)
Definition cycle_block_A (x : string) : Graph :=
  [mkResource "" [mkPredicate dc_ns "source" (ResourceNode x)]].

Definition cycle_block_B (x : string) : Graph :=
  [mkResource x [mkPredicate dc_ns "source" (ResourceNode "")]].

Definition cycle_doc (x : string) : list Graph := [cycle_block_A x; cycle_block_B x].

(** ** Termination of the source walk *)

Definition obj_uris (n : Node) : list string :=
  match n with ResourceNode u => [u] | _ => [] end.

(** Every resource URI a predicate object of block [g] names. *)
Definition graph_uris (g : Graph) : list string :=
  flat_map (fun r => flat_map (fun p => obj_uris (pred_object p)) (predicates r)) g.

(** The URIs, not yet keys of [sp], among [l] (each once). *)
Definition pend (l : list string) (sp : SourceProps) : list string :=
  filter (fun u => negb (key_in u sp)) (nodup string_dec l).

Definition pending (g : Graph) (st : WalkState) : list string :=
  pend (graph_uris g ++ flat_map obj_uris (source_res st)) (source_props st).

Definition walk_rel (get_term : string -> string -> option string) (g : Graph)
  (st' st : WalkState) : Prop :=
  walk_iter get_term g st = WalkNext st'.

Lemma pend_NoDup : forall l sp, NoDup (pend l sp).
Proof. intros. apply NoDup_filter, NoDup_nodup. Qed.

Lemma In_pend : forall x l sp, In x (pend l sp) <-> In x l /\ key_in x sp = false.
Proof.
  intros x l sp. unfold pend. rewrite filter_In, nodup_In, negb_true_iff. tauto.
Qed.

Lemma key_in_app_new : forall u p sp, key_in u (sp ++ [(u, p)]) = true.
Proof.
  intros. unfold key_in. rewrite existsb_app. simpl.
  rewrite String.eqb_refl. apply orb_true_r.
Qed.

Lemma key_in_app_false : forall x u p sp,
  key_in x (sp ++ [(u, p)]) = false -> key_in x sp = false.
Proof.
  intros x u p sp H. unfold key_in in *. rewrite existsb_app in H.
  apply orb_false_iff in H. tauto.
Qed.

Lemma init_loop_sources : forall gt preds n,
  In n (snd (init_loop gt preds)) -> exists p, In p preds /\ pred_object p = n.
Proof.
  intros gt preds. induction preds as [|p rest IH]; simpl; intros n Hn; [contradiction|].
  destruct (init_loop gt rest) as [ps ss] eqn:E. simpl in IH.
  destruct (pred_object p) eqn:Ep; simpl in Hn;
    try (destruct (IH n Hn) as [q [Hq Hq']]; exists q; tauto).
  all: match type of Hn with context [if ?b then _ else _] => destruct b end;
    [destruct Hn as [Hn|Hn]|];
    try (subst; exists p; tauto);
    destruct (IH n Hn) as [q [Hq Hq']]; exists q; tauto.
Qed.

Lemma lookup_predicates_in : forall g u p,
  In p (lookup_predicates g u) -> exists r, In r g /\ In p (predicates r).
Proof.
  induction g as [|r rest IH]; simpl; intros u p Hp; [contradiction|].
  destruct (String.eqb (res_uri r) u).
  - exists r. tauto.
  - destruct (IH u p Hp) as [r' [Hr Hp']]. exists r'. tauto.
Qed.

Lemma project_node_sources_in_graph : forall gt g u v,
  In v (flat_map obj_uris (get_sources (project_node gt g u))) -> In v (graph_uris g).
Proof.
  intros gt g u v Hv. apply in_flat_map in Hv as [n [Hn Hv]].
  unfold get_sources, project_node, make_ResourceProperties in Hn. simpl in Hn.
  destruct (init_loop gt (lookup_predicates g u)) as [ps ss] eqn:E. simpl in Hn.
  assert (Hs : In n (snd (init_loop gt (lookup_predicates g u)))) by (rewrite E; exact Hn).
  destruct (init_loop_sources _ _ _ Hs) as [p [Hp Hpn]].
  destruct (lookup_predicates_in _ _ _ Hp) as [r [Hr Hpr]].
  unfold graph_uris. apply in_flat_map. exists r. split; [exact Hr|].
  apply in_flat_map. exists p. rewrite Hpn. tauto.
Qed.

(** Each iteration either makes one more URI a key, or keeps the keys and
    shortens the queue. *)
Lemma walk_measure : forall gt g st st',
  walk_rel gt g st' st ->
  length (pending g st') < length (pending g st)
  \/ (length (pending g st') <= length (pending g st)
      /\ length (source_res st') < length (source_res st)).
Proof.
  intros gt g [q sp] st' Hs. unfold walk_rel, walk_iter in Hs. simpl in Hs.
  destruct q as [|s rest]; [discriminate|].
  destruct s as [| v | u]; simpl in Hs; try discriminate.
  unfold pending. simpl.
  destruct (is_about_image u || key_in u sp) eqn:Hd; injection Hs as <-; simpl.
  - right. split; [|lia].
    apply NoDup_incl_length; [apply pend_NoDup|].
    intros x Hx. apply In_pend in Hx as [Hx Hk]. apply In_pend. split; [|exact Hk].
    apply in_app_or in Hx as [Hx|Hx]; apply in_or_app; [left; exact Hx|].
    right. simpl. right. exact Hx.
  - left. apply orb_false_iff in Hd as [_ Hk].
    set (p := project_node gt g u).
    enough (H : length (u :: pend (graph_uris g ++ flat_map obj_uris (rest ++ get_sources p))
                              (sp ++ [(u, p)]))
                <= length (pend (graph_uris g ++ u :: flat_map obj_uris rest) sp))
      by (simpl in H; lia).
    apply NoDup_incl_length.
    + constructor; [|apply pend_NoDup].
      intro Hu. apply In_pend in Hu as [_ Hu]. rewrite key_in_app_new in Hu. discriminate.
    + intros x [<-|Hx].
      * apply In_pend. split; [|exact Hk]. apply in_or_app. right. left. reflexivity.
      * apply In_pend in Hx as [Hx Hkx]. apply In_pend.
        split; [|eapply key_in_app_false; exact Hkx].
        rewrite flat_map_app in Hx.
        apply in_app_or in Hx as [Hx|Hx]; [apply in_or_app; left; exact Hx|].
        apply in_app_or in Hx as [Hx|Hx].
        -- apply in_or_app. right. right. exact Hx.
        -- apply in_or_app. left. eapply project_node_sources_in_graph. exact Hx.
Qed.

Section WalkTermination.

Variable gt : string -> string -> option string.
Variable g : Graph.

Lemma walk_acc_aux : forall n st,
  length (pending g st) <= n -> Acc (walk_rel gt g) st.
Proof.
  induction n as [|n IHn]; intros st Hn;
    remember (length (source_res st)) as m eqn:Hm;
    assert (Hm' : length (source_res st) <= m) by lia; clear Hm;
    revert st Hn Hm'; induction m as [|m IHm]; intros st Hn Hm;
    constructor; intros st' Hs;
    destruct (walk_measure gt g st st' Hs) as [Hlt | [Hle Hlt]]; try lia.
  - apply IHm; lia.
  - apply IHn. lia.
  - apply IHn. lia.
  - apply IHm; lia.
Qed.

Lemma walk_acc : forall st, Acc (walk_rel gt g) st.
Proof. intro st. apply (walk_acc_aux (length (pending g st))). lia. Qed.

Lemma drain_total : forall st, exists fuel r, drain gt fuel g st = Some r.
Proof.
  intro st. induction (walk_acc st) as [st _ IH].
  destruct (walk_iter gt g st) as [| e | st'] eqn:E.
  - exists 1. simpl. rewrite E. eauto.
  - exists 1. simpl. rewrite E. eauto.
  - destruct (IH st' E) as [f [r Hr]]. exists (S f), r. simpl. rewrite E. exact Hr.
Qed.

Lemma drain_mono : forall f f' st r,
  drain gt f g st = Some r -> f <= f' -> drain gt f' g st = Some r.
Proof.
  induction f as [|f IH]; intros f' st r H Hle; [discriminate|].
  destruct f' as [|f']; [lia|]. simpl in *.
  destruct (walk_iter gt g st); try exact H.
  apply IH; [exact H | lia].
Qed.

End WalkTermination.

Lemma process_blocks_mono : forall gt f f' blocks work sp r,
  process_blocks gt f blocks work sp = Some r -> f <= f' ->
  process_blocks gt f' blocks work sp = Some r.
Proof.
  intros gt f f' blocks. induction blocks as [|g rest IH]; intros work sp r H Hle;
    simpl in *; [exact H|].
  destruct (drain gt f g _) as [[st|e]|] eqn:E; try discriminate;
    rewrite (drain_mono gt g _ _ _ _ E Hle).
  - apply IH; assumption.
  - exact H.
Qed.

Lemma process_blocks_total : forall gt blocks work sp,
  exists f r, process_blocks gt f blocks work sp = Some r.
Proof.
  intros gt blocks. induction blocks as [|g rest IH]; intros work sp.
  - exists 0. simpl. eauto.
  - destruct (drain_total gt g (mkWalkState (concat (map get_sources (block_work gt g))) sp))
      as [f1 [r1 E1]].
    destruct r1 as [st|e].
    + destruct (IH (work ++ block_work gt g) (source_props st)) as [f2 [r2 E2]].
      exists (Nat.max f1 f2), r2. simpl.
      rewrite (drain_mono gt g _ _ _ _ E1 (Nat.le_max_l f1 f2)).
      apply (process_blocks_mono gt f2); [exact E2 | lia].
    + exists f1, (Raise e). simpl. rewrite E1. reflexivity.
Qed.

Lemma rdf_properties_mono : forall gt f f' doc r,
  rdf_properties gt f doc = Some r -> f <= f' -> rdf_properties gt f' doc = Some r.
Proof.
  intros gt f f' doc r H Hle. destruct doc as [|g rest]; [exact H|].
  unfold rdf_properties in *.
  destruct (process_blocks gt f (g :: rest) [] []) as [r'|] eqn:E; [|discriminate].
  rewrite (process_blocks_mono gt f f' _ _ _ _ E Hle). exact H.
Qed.

Lemma subject_uri_make : forall gt res,
  subject_uri (make_ResourceProperties gt res) = res_uri res.
Proof.
  intros gt res. unfold make_ResourceProperties.
  destruct (init_loop gt (predicates res)). reflexivity.
Qed.

Lemma rdf_properties_total : forall gt doc,
  exists fuel r, rdf_properties gt fuel doc = Some r.
Proof.
  intros gt doc. destruct doc as [|g rest].
  - exists 0. simpl. eauto.
  - destruct (process_blocks_total gt (g :: rest) [] []) as [f [r E]].
    exists f. unfold rdf_properties. rewrite E.
    destruct r as [[work sp]|e]; eauto.
Qed.

Lemma walk_iter_discard : forall gt g st s rest u,
  source_res st = s :: rest -> node_uri s = Ok u ->
  is_about_image u = true \/ key_in u (source_props st) = true ->
  walk_iter gt g st = WalkNext (mkWalkState rest (source_props st)).
Proof.
  intros gt g st s rest u Hq Hs Hd. unfold walk_iter. rewrite Hq, Hs.
  destruct Hd as [Hd|Hd]; rewrite Hd; [|rewrite orb_true_r]; reflexivity.
Qed.

Lemma cycle_doc_result : forall gt x fuel,
  is_about_image x = false -> 2 <= fuel ->
  exists w vals, rdf_properties gt fuel (cycle_doc x) = Some (Ok (Some (w, vals)))
    /\ map subject_uri vals = [x] /\ map subject_uri w = [""].
Proof.
  intros gt x fuel Hx Hf.
  destruct fuel as [|[|f]]; [lia|lia|].
  assert (Hp : get_sources (project_node gt (cycle_block_A x) x) = [])
    by (destruct x; [discriminate|reflexivity]).
  assert (HwB : block_work gt (cycle_block_B x) = [])
    by (unfold block_work, cycle_block_B; simpl; rewrite Hx; reflexivity).
  set (w := make_ResourceProperties gt
              (mkResource "" [mkPredicate dc_ns "source" (ResourceNode x)])).
  assert (HwA : block_work gt (cycle_block_A x) = [w]) by reflexivity.
  assert (Hs : get_sources w = [ResourceNode x]) by reflexivity.
  unfold rdf_properties, cycle_doc.
  cbn [process_blocks]. rewrite HwA, HwB. cbn [map concat]. rewrite Hs. cbn [app].
  cbn [drain walk_iter source_res node_uri source_props key_in existsb].
  rewrite Hx. cbn [orb]. rewrite Hp.
  destruct f; cbn [drain walk_iter source_res source_props process_blocks map concat app];
    do 2 eexists; (split; [reflexivity|]); simpl;
    unfold project_node; rewrite subject_uri_make; split; reflexivity.
Qed.

(** ** Claims *)

(** C1: for every document the source-link walk of [rdf_properties]
    terminates (some number of loop iterations suffices for every block, and
    more iterations give the same result); a queued source reference whose URI
    is empty, starts with ['#'] or is already a key of [source_props] is
    dropped without being projected; and in the two-block cycle scenario
    ([""] points via [dc:source] to [x] in block A, [x] points back to [""] in
    block B) the walk ends with exactly one source record, the one of [x]. *)
Theorem rdf_properties_walk_terminates :
  (forall gt doc, exists fuel r, rdf_properties gt fuel doc = Some r
     /\ forall fuel', fuel <= fuel' -> rdf_properties gt fuel' doc = Some r)
  /\ (forall gt g st s rest u,
        source_res st = s :: rest -> node_uri s = Ok u ->
        is_about_image u = true \/ key_in u (source_props st) = true ->
        walk_iter gt g st = WalkNext (mkWalkState rest (source_props st)))
  /\ (forall gt x fuel,
        is_about_image x = false -> 2 <= fuel ->
        exists w vals,
          rdf_properties gt fuel (cycle_doc x) = Some (Ok (Some (w, vals)))
          /\ map subject_uri vals = [x] /\ map subject_uri w = [""]).
Proof.
  split; [|split].
  - intros gt doc. destruct (rdf_properties_total gt doc) as [f [r E]].
    exists f, r. split; [exact E|]. intros f' Hf. eapply rdf_properties_mono; eauto.
  - exact walk_iter_discard.
  - exact cycle_doc_result.
Qed.

(** A document with one block whose work resource has a literal-valued
    [dc:source]. *)
Definition literal_source_doc : list Graph :=
  [[mkResource "" [mkPredicate dc_ns "source" (LiteralNode "Photo by Jane")]]].

Lemma rdf_properties_sentinel_iff : forall gt fuel doc,
  rdf_properties gt fuel doc = Some (Ok None) <-> doc = [].
Proof.
  intros gt fuel doc. split; intro H.
  - destruct doc as [|g rest]; [reflexivity|]. unfold rdf_properties in H.
    destruct (process_blocks gt fuel (g :: rest) [] []) as [[[w sp]|e]|];
      discriminate.
  - subst. reflexivity.
Qed.

(** C5 (code evaluated at the failing input): [rdf_properties] returns the
    [(None, None)] sentinel exactly for a document without [rdf:RDF] blocks,
    but on a one-block document whose work resource has a literal
    [dc:source] it returns no pair at all: the walk reads [s.uri] on the
    literal node and raises. *)
Theorem rdf_properties_literal_source_raises :
  (forall gt fuel doc, rdf_properties gt fuel doc = Some (Ok None) <-> doc = [])
  /\ (forall gt fuel, 1 <= fuel ->
        rdf_properties gt fuel literal_source_doc = Some (Raise AttributeError)).
Proof.
  split; [exact rdf_properties_sentinel_iff|].
  intros gt fuel Hf. destruct fuel as [|f]; [lia|]. reflexivity.
Qed.

Lemma drain_empty_queue : forall gt f g sp r,
  drain gt f g (mkWalkState [] sp) = Some r -> r = Ok (mkWalkState [] sp).
Proof.
  intros gt f g sp r H. destruct f as [|f]; [discriminate|].
  simpl in H. injection H as <-. reflexivity.
Qed.

Lemma process_blocks_work_before_sources : forall gt f blocks work sp w' sp',
  process_blocks gt f blocks work sp = Some (Ok (w', sp')) ->
  work <> [] \/ sp = [] -> w' <> [] \/ sp' = [].
Proof.
  intros gt f blocks. induction blocks as [|g rest IH]; intros work sp w' sp' H Hinv;
    cbn [process_blocks] in H.
  - injection H as <- <-. exact Hinv.
  - destruct (drain gt f g _) as [[st|e]|] eqn:E; try discriminate.
    apply (IH _ _ _ _ H).
    destruct (block_work gt g) as [|b bs] eqn:Hw.
    + simpl in E. apply drain_empty_queue in E. injection E as ->.
      rewrite app_nil_r. exact Hinv.
    + left. intro Hn. apply app_eq_nil in Hn as [_ Hn]. discriminate.
Qed.

(** C10: whenever [rdf_properties] returns a pair with a non-empty source
    list, its work list is non-empty as well, so [add_remix_to_context]
    never fails on [work_props[0]] for a result of the resolver. *)
Theorem sources_imply_work :
  forall gt fuel doc w s,
  rdf_properties gt fuel doc = Some (Ok (Some (w, s))) ->
  (s <> [] -> w <> []) /\ (forall e, add_remix_to_context (Some (w, s)) <> Raise e).
Proof.
  intros gt fuel doc w s H.
  assert (Hws : w <> [] \/ s = []).
  { destruct doc as [|g rest]; [discriminate|]. unfold rdf_properties in H.
    destruct (process_blocks gt fuel (g :: rest) [] []) as [[[w' sp]|e]|] eqn:E;
      try discriminate.
    injection H as <- <-.
    destruct (process_blocks_work_before_sources _ _ _ _ _ _ _ E (or_intror eq_refl))
      as [Hn|Hn]; [left; exact Hn|right; rewrite Hn; reflexivity]. }
  split.
  - intros Hs. destruct Hws; [assumption|contradiction].
  - intros e. unfold add_remix_to_context.
    destruct w as [|w0 rest]; destruct s as [|s0 srest]; try discriminate.
    destruct Hws as [Hn|Hn]; [contradiction|discriminate].
Qed.

Definition no_vocab (ns local : string) : option string := None.

Lemma sources_imply_work_witness :
  exists w s,
    rdf_properties no_vocab 2 (cycle_doc "http://example.org/original.svg")
      = Some (Ok (Some (w, s)))
    /\ (s <> [] -> w <> []) /\ (forall e, add_remix_to_context (Some (w, s)) <> Raise e).
Proof.
  eexists _, _. split; [reflexivity|].
  apply (sources_imply_work no_vocab 2 (cycle_doc "http://example.org/original.svg")). reflexivity.
Defined.

(** ** The projected properties *)

Definition not_blank (pred : Predicate) : bool :=
  match pred_object pred with BlankNode => false | _ => true end.

Lemma init_loop_props : forall gt preds,
  fst (init_loop gt preds) = map (project_predicate gt) (filter not_blank preds).
Proof.
  intros gt preds. induction preds as [|pred rest IH]; [reflexivity|]. simpl.
  destruct (init_loop gt rest) as [ps ss]. simpl in IH.
  unfold not_blank at 1. destruct (pred_object pred); simpl; rewrite IH; reflexivity.
Qed.

Lemma make_fields : forall gt res,
  let ps := map (project_predicate gt) (filter not_blank (predicates res)) in
  properties (make_ResourceProperties gt res) = license_backfill (choose_license ps) ps
  /\ title (make_ResourceProperties gt res) = choose_title ps
  /\ attribution (make_ResourceProperties gt res) = choose_attribution ps
  /\ license (make_ResourceProperties gt res) = choose_license ps.
Proof.
  intros gt res ps. unfold make_ResourceProperties.
  pose proof (init_loop_props gt (predicates res)) as H.
  destruct (init_loop gt (predicates res)) as [ps' ss]. simpl in H. subst ps'.
  repeat split.
Qed.

Lemma nth_error_set_nth : forall (A : Type) (l : list A) i j x,
  nth_error (set_nth j x l) i =
  if Nat.eqb i j then match nth_error l i with Some _ => Some x | None => None end
  else nth_error l i.
Proof.
  intros A l. induction l as [|y rest IH]; intros i j x.
  - destruct i, j; simpl; try reflexivity. destruct (Nat.eqb i j); reflexivity.
  - destruct i as [|i], j as [|j]; simpl; try reflexivity. apply IH.
Qed.

Lemma find_index_spec : forall u ps i,
  find_index u ps = Some i -> exists p, nth_error ps i = Some p /\ rp_uri p = u.
Proof.
  intros u ps. induction ps as [|q rest IH]; intros i H; simpl in H; [discriminate|].
  destruct (String.eqb u (rp_uri q)) eqn:E.
  - injection H as <-. exists q. apply String.eqb_eq in E. auto.
  - destruct (find_index u rest) as [k|] eqn:Ek; [|discriminate].
    injection H as <-. simpl. apply IH. reflexivity.
Qed.

Lemma find_property_index : forall u ps,
  find_property u ps = deref ps (find_index u ps).
Proof.
  intros u ps. induction ps as [|q rest IH]; [reflexivity|]. simpl.
  destruct (String.eqb u (rp_uri q)); [reflexivity|].
  rewrite IH. destruct (find_index u rest); reflexivity.
Qed.

Lemma find_index_set_nth : forall u ps j l x,
  nth_error ps j = Some l -> rp_uri x = rp_uri l ->
  find_index u (set_nth j x ps) = find_index u ps.
Proof.
  intros u ps. induction ps as [|q rest IH]; intros j l x Hl Hx; [destruct j; reflexivity|].
  destruct j as [|j]; simpl in *.
  - injection Hl as ->. rewrite Hx. reflexivity.
  - rewrite (IH j l x Hl Hx). reflexivity.
Qed.

Lemma find_property_set_nth_other : forall u ps j l x,
  nth_error ps j = Some l -> rp_uri x = rp_uri l -> u <> rp_uri l ->
  find_property u (set_nth j x ps) = find_property u ps.
Proof.
  intros u ps j l x Hl Hx Hu. rewrite !find_property_index.
  rewrite (find_index_set_nth u ps j l x Hl Hx).
  destruct (find_index u ps) as [i|] eqn:Ei; [|reflexivity]. simpl.
  rewrite nth_error_set_nth. destruct (Nat.eqb i j) eqn:Eij; [|reflexivity].
  apply Nat.eqb_eq in Eij. subst i.
  destruct (find_index_spec _ _ _ Ei) as [p [Hp Hpu]]. congruence.
Qed.

Lemma choose_license_uri : forall ps i,
  choose_license ps = Some i ->
  exists l, nth_error ps i = Some l
    /\ (rp_uri l = dcterms_license \/ rp_uri l = cc_license \/ rp_uri l = xhtml_license).
Proof.
  intros ps i H. unfold choose_license in H.
  destruct (find_index dcterms_license ps) as [k|] eqn:E1.
  - injection H as <-. destruct (find_index_spec _ _ _ E1) as [l [? ?]]. eauto.
  - destruct (find_index cc_license ps) as [k|] eqn:E2.
    + injection H as <-. destruct (find_index_spec _ _ _ E2) as [l [? ?]]. eauto.
    + destruct (find_index_spec _ _ _ H) as [l [? ?]]. eauto.
Qed.

Lemma license_backfill_nth : forall lic ps i p,
  nth_error (license_backfill lic ps) i = Some p ->
  exists q, nth_error ps i = Some q
    /\ (p = q \/ (lic = Some i /\ str_truthy (rp_content q) = false
                  /\ p = set_content q (license_labels_get (rp_resource q)))).
Proof.
  intros lic ps i p H. unfold license_backfill in H.
  destruct lic as [j|]; [|exists p; auto].
  destruct (nth_error ps j) as [l|] eqn:El; [|exists p; auto].
  destruct (str_truthy (rp_content l)) eqn:Et; simpl in H; [exists p; auto|].
  rewrite nth_error_set_nth in H.
  destruct (Nat.eqb i j) eqn:Eij; [|exists p; auto].
  apply Nat.eqb_eq in Eij. subst j. rewrite El in H. injection H as <-.
  exists l. split; [exact El|]. right. auto.
Qed.

Lemma license_backfill_find_other : forall u ps,
  u <> dcterms_license -> u <> cc_license -> u <> xhtml_license ->
  find_property u (license_backfill (choose_license ps) ps) = find_property u ps.
Proof.
  intros u ps H1 H2 H3. unfold license_backfill.
  destruct (choose_license ps) as [j|] eqn:Ej; [|reflexivity].
  destruct (choose_license_uri _ _ Ej) as [l [Hl Hu]]. rewrite Hl.
  destruct (negb (str_truthy (rp_content l))); [|reflexivity].
  apply (find_property_set_nth_other u ps j l); [exact Hl|reflexivity|].
  intro E. rewrite <- E in Hu. tauto.
Qed.

Lemma properties_nth : forall gt res i p,
  nth_error (properties (make_ResourceProperties gt res)) i = Some p ->
  exists pred, nth_error (filter not_blank (predicates res)) i = Some pred
    /\ (p = project_predicate gt pred
        \/ (license (make_ResourceProperties gt res) = Some i
            /\ str_truthy (node_content (pred_object pred)) = false
            /\ p = set_content (project_predicate gt pred)
                     (license_labels_get (node_resource (pred_object pred))))).
Proof.
  intros gt res i p H.
  destruct (make_fields gt res) as [Hp [_ [_ Hl]]]. rewrite Hl. rewrite Hp in H.
  apply license_backfill_nth in H as [q [Hq Hpq]].
  rewrite nth_error_map in Hq.
  destruct (nth_error (filter not_blank (predicates res)) i) as [pred|]; [|discriminate].
  injection Hq as <-. exists pred. split; [reflexivity|]. exact Hpq.
Qed.

Lemma length_set_nth : forall (A : Type) (l : list A) j x,
  length (set_nth j x l) = length l.
Proof.
  intros A l. induction l as [|y rest IH]; intros j x; [destruct j; reflexivity|].
  destruct j; simpl; [reflexivity|]. rewrite IH. reflexivity.
Qed.

Lemma license_backfill_length : forall lic ps,
  length (license_backfill lic ps) = length ps.
Proof.
  intros lic ps. unfold license_backfill.
  destruct lic as [j|]; [|reflexivity]. destruct (nth_error ps j); [|reflexivity].
  destruct (negb _); [apply length_set_nth|reflexivity].
Qed.

Lemma properties_length : forall gt res,
  length (properties (make_ResourceProperties gt res))
  = length (filter not_blank (predicates res)).
Proof.
  intros gt res. destruct (make_fields gt res) as [Hp _]. rewrite Hp.
  rewrite license_backfill_length, length_map. reflexivity.
Qed.

Lemma Forall2_of_nth : forall (A B : Type) (P : A -> B -> Prop) l1 l2,
  length l1 = length l2 ->
  (forall i a b, nth_error l1 i = Some a -> nth_error l2 i = Some b -> P a b) ->
  Forall2 P l1 l2.
Proof.
  intros A B P l1. induction l1 as [|a r1 IH]; intros l2 Hlen H;
    destruct l2 as [|b r2]; try discriminate; constructor.
  - apply (H 0); reflexivity.
  - apply IH; [simpl in Hlen; lia|]. intros i x y Hx Hy. apply (H (S i)); assumption.
Qed.

(** The properties list against the non-blank predicates, position by position. *)
Lemma properties_Forall2 : forall gt res,
  let R := make_ResourceProperties gt res in
  Forall2 (fun p pred =>
      p = project_predicate gt pred
      \/ (license_prop R = Some p
          /\ str_truthy (node_content (pred_object pred)) = false
          /\ p = set_content (project_predicate gt pred)
                   (license_labels_get (node_resource (pred_object pred)))))
    (properties R) (filter not_blank (predicates res)).
Proof.
  intros gt res R. apply Forall2_of_nth; [apply properties_length|].
  intros i p pred Hp Hpred.
  destruct (properties_nth gt res i p Hp) as [pred' [Hpred' Hcase]].
  rewrite Hpred in Hpred'. injection Hpred' as <-.
  destruct Hcase as [Hc|[Hl Hc]]; [left; exact Hc|right].
  split; [|exact Hc]. unfold license_prop, R. rewrite Hl. exact Hp.
Qed.

Lemma filter_not_blank_obj : forall preds pred,
  In pred (filter not_blank preds) -> pred_object pred <> BlankNode.
Proof.
  intros preds pred H. apply filter_In in H as [_ H].
  unfold not_blank in H. destruct (pred_object pred); discriminate.
Qed.

Lemma find_property_In : forall u ps p, find_property u ps = Some p -> In p ps.
Proof.
  intros u ps. induction ps as [|q rest IH]; intros p H; simpl in H; [discriminate|].
  destruct (String.eqb u (rp_uri q)); [injection H as <-; left; reflexivity|].
  right. apply IH. exact H.
Qed.

Lemma deref_In : forall ps r p, deref ps r = Some p -> In p ps.
Proof.
  intros ps [i|] p H; [|discriminate]. apply nth_error_In with i. exact H.
Qed.

Lemma In_opt_list : forall (A : Type) (o : option A) x, In x (opt_list o) -> o = Some x.
Proof. intros A [y|] x H; simpl in H; [destruct H as [<-|[]]; reflexivity|contradiction]. Qed.

Lemma display_In : forall R p,
  In p (get_display_properties R) -> In p (properties R) \/ attribution R = Some p.
Proof.
  intros R p H. unfold get_display_properties in H.
  repeat (apply in_app_or in H; destruct H as [H|H]).
  - left. apply In_opt_list in H. eapply deref_In. exact H.
  - destruct (attribution R) as [a|] eqn:Ea.
    + destruct H as [<-|[]]. right. reflexivity.
    + apply in_app_or in H. left.
      destruct H as [H|H]; apply In_opt_list in H; eapply find_property_In; exact H.
  - left. apply In_opt_list in H. eapply deref_In. exact H.
  - left. apply filter_In in H. tauto.
Qed.

(** C6: blank-node objects are never projected: the properties list
    corresponds position by position to the predicates whose object is not a
    blank node (same predicate URI), so every entry comes from a non-blank
    edge; the technical list is drawn from the properties list, and the
    display list from it plus the synthesized attribution. *)
Theorem blank_nodes_excluded : forall gt res,
  let R := make_ResourceProperties gt res in
  Forall2 (fun p pred => pred_object pred <> BlankNode /\ rp_uri p = pred_uri_str pred)
    (properties R) (filter not_blank (predicates res))
  /\ (forall p, In p (get_tech_properties R) -> In p (properties R))
  /\ (forall p, In p (get_display_properties R) ->
        In p (properties R) \/ attribution R = Some p).
Proof.
  intros gt res R. split; [|split].
  - pose proof (properties_Forall2 gt res) as H. simpl in H. fold R in H.
    assert (Hin : forall pred, In pred (filter not_blank (predicates res)) ->
                    pred_object pred <> BlankNode) by apply filter_not_blank_obj.
    revert Hin. induction H as [|p pred ps preds Hpp _ IH]; intros Hin; constructor.
    + split; [apply Hin; left; reflexivity|].
      destruct Hpp as [->|[_ [_ ->]]]; reflexivity.
    + apply IH. intros q Hq. apply Hin. right. exact Hq.
  - intros p Hp. unfold get_tech_properties in Hp. apply filter_In in Hp. tauto.
  - apply display_In.
Qed.

(** C9: the label of every projected property is the vocabulary term's label
    when the lookup by (namespace URI, local name) succeeds, and the raw
    predicate URI string when it fails; the projection is total. *)
Theorem label_fallback : forall gt res,
  Forall2 (fun p pred =>
      rp_uri p = pred_uri_str pred
      /\ (gt (pred_ns pred) (pred_local pred) = None -> rp_label p = Some (pred_uri_str pred))
      /\ (forall l, gt (pred_ns pred) (pred_local pred) = Some l -> rp_label p = Some l))
    (properties (make_ResourceProperties gt res)) (filter not_blank (predicates res)).
Proof.
  intros gt res. pose proof (properties_Forall2 gt res) as H. simpl in H.
  induction H as [|p pred ps preds Hpp _ IH]; constructor; [|exact IH].
  assert (Hl : rp_uri p = pred_uri_str pred
               /\ rp_label p = rp_label (project_predicate gt pred))
    by (destruct Hpp as [->|[_ [_ ->]]]; split; reflexivity).
  destruct Hl as [Hu Hl]. rewrite Hl. unfold project_predicate. simpl.
  split; [exact Hu|split].
  - intros E. rewrite E. reflexivity.
  - intros l E. rewrite E. reflexivity.
Qed.

(** A resource whose only predicate is [dcterms:license] pointing at the
    CC BY-SA 3.0 URI. *)
Definition by_sa_url := "http://creativecommons.org/licenses/by-sa/3.0/".

Definition by_sa_resource : Resource :=
  mkResource "" [mkPredicate dcterms_ns "license" (ResourceNode by_sa_url)].

(** C2, counterexample: after construction, the [dcterms:license] property
    of [by_sa_resource] has both [content] (the backfilled label) and
    [resource] set. *)
Lemma license_backfill_sets_both :
  ~ (forall p, In p (properties (make_ResourceProperties no_vocab by_sa_resource)) ->
       rp_content p = None \/ rp_resource p = None).
Proof.
  intros H.
  destruct (H (mkResourceProperty dcterms_license (Some dcterms_license)
                 (Some "CC BY-SA 3.0") (Some by_sa_url) None)) as [E|E];
    [left; reflexivity | discriminate | discriminate].
Qed.

Lemma license_backfill_find_index : forall u lic ps,
  find_index u (license_backfill lic ps) = find_index u ps.
Proof.
  intros u lic ps. unfold license_backfill.
  destruct lic as [j|]; [|reflexivity].
  destruct (nth_error ps j) as [l|] eqn:El; [|reflexivity].
  destruct (negb _); [|reflexivity].
  apply (find_index_set_nth u ps j l); [exact El|reflexivity].
Qed.

Lemma deref_first : forall ps u x,
  deref ps (match find_index u ps with Some i => Some i | None => x end)
  = match find_property u ps with Some p => Some p | None => deref ps x end.
Proof.
  intros ps u x. rewrite find_property_index.
  destruct (find_index u ps) as [i|] eqn:Ei; [|reflexivity]. simpl.
  destruct (find_index_spec _ _ _ Ei) as [p [Hp _]]. rewrite Hp. reflexivity.
Qed.

Lemma title_prop_first : forall gt res,
  let R := make_ResourceProperties gt res in
  title_prop R = match find_property dc_title (properties R) with
                 | Some t => Some t
                 | None => find_property dcterms_title (properties R)
                 end.
Proof.
  intros gt res R. unfold title_prop, R.
  destruct (make_fields gt res) as [Hp [Ht _]]. rewrite Ht, Hp.
  set (ps0 := map (project_predicate gt) (filter not_blank (predicates res))).
  unfold choose_title. rewrite <- !(license_backfill_find_index _ (choose_license ps0) ps0).
  rewrite deref_first, <- find_property_index. reflexivity.
Qed.

Lemma license_prop_first : forall gt res,
  let R := make_ResourceProperties gt res in
  license_prop R = match find_property dcterms_license (properties R) with
                   | Some l => Some l
                   | None =>
                       match find_property cc_license (properties R) with
                       | Some l => Some l
                       | None => find_property xhtml_license (properties R)
                       end
                   end.
Proof.
  intros gt res R. unfold license_prop, R.
  destruct (make_fields gt res) as [Hp [_ [_ Hl]]]. rewrite Hl, Hp.
  set (ps0 := map (project_predicate gt) (filter not_blank (predicates res))).
  unfold choose_license at 2.
  rewrite <- !(license_backfill_find_index _ (choose_license ps0) ps0).
  rewrite deref_first, deref_first, <- find_property_index. reflexivity.
Qed.

Lemma license_prop_backfilled : forall gt res,
  let ps0 := map (project_predicate gt) (filter not_blank (predicates res)) in
  license_prop (make_ResourceProperties gt res)
  = match (match find_property dcterms_license ps0 with
           | Some l => Some l
           | None => match find_property cc_license ps0 with
                     | Some l => Some l
                     | None => find_property xhtml_license ps0
                     end
           end) with
    | Some l => Some (if str_truthy (rp_content l) then l
                      else set_content l (license_labels_get (rp_resource l)))
    | None => None
    end.
Proof.
  intros gt res ps0. unfold license_prop.
  destruct (make_fields gt res) as [Hp [_ [_ Hl]]]. rewrite Hl, Hp. fold ps0.
  assert (Hfirst : deref ps0 (choose_license ps0) =
          match find_property dcterms_license ps0 with
          | Some l => Some l
          | None => match find_property cc_license ps0 with
                    | Some l => Some l
                    | None => find_property xhtml_license ps0
                    end
          end)
    by (unfold choose_license; rewrite deref_first, deref_first,
          <- find_property_index; reflexivity).
  rewrite <- Hfirst. unfold license_backfill.
  destruct (choose_license ps0) as [i|] eqn:Ei; [|reflexivity]. simpl.
  destruct (nth_error ps0 i) as [l|] eqn:El; [|exact El].
  destruct (str_truthy (rp_content l)) eqn:Et; simpl; [exact El|].
  rewrite nth_error_set_nth, Nat.eqb_refl, El. reflexivity.
Qed.

(** The license [self.license] refers to is, after construction, the
    property the predicate loop built for one non-blank predicate, with the
    backfill of line 159 applied to its content. *)
Lemma license_from_loop : forall gt res L,
  license_prop (make_ResourceProperties gt res) = Some L ->
  exists pred, In pred (filter not_blank (predicates res))
    /\ rp_uri L = pred_uri_str pred
    /\ rp_resource L = node_resource (pred_object pred)
    /\ rp_content L = if str_truthy (node_content (pred_object pred))
                      then node_content (pred_object pred)
                      else license_labels_get (node_resource (pred_object pred)).
Proof.
  intros gt res L H. rewrite license_prop_backfilled in H.
  set (ps0 := map (project_predicate gt) (filter not_blank (predicates res))) in *.
  assert (Hin : forall l, (match find_property dcterms_license ps0 with
                           | Some l => Some l
                           | None => match find_property cc_license ps0 with
                                     | Some l => Some l
                                     | None => find_property xhtml_license ps0
                                     end
                           end) = Some l -> In l ps0).
  { intros l Hl.
    destruct (find_property dcterms_license ps0) eqn:E1;
      [injection Hl as <-; eapply find_property_In; exact E1|].
    destruct (find_property cc_license ps0) eqn:E2;
      [injection Hl as <-; eapply find_property_In; exact E2|].
    eapply find_property_In; exact Hl. }
  destruct (match find_property dcterms_license ps0 with
            | Some l => Some l
            | None => match find_property cc_license ps0 with
                      | Some l => Some l
                      | None => find_property xhtml_license ps0
                      end
            end) as [l|]; [|discriminate].
  injection H as <-. specialize (Hin l eq_refl).
  apply in_map_iff in Hin as [pred [<- Hp]].
  exists pred. split; [exact Hp|].
  unfold project_predicate; cbn [rp_content rp_resource rp_uri].
  destruct (str_truthy (node_content (pred_object pred))); repeat split.
Qed.

(** C2, as the code does it: every property comes from the non-blank
    predicate at its position; its [resource] is the object's URI exactly when
    the object is a resource node; its [content] is the literal's value
    exactly when the object is a literal node, unless it is the object
    [self.license] refers to and that content was empty, in which case it was
    overwritten with [license_labels.get(resource)].  So every property other
    than the license object has at most one of [content] and [resource].
    The overwrite does happen: the chosen license is an element of the list,
    its content is the loop's content when that is a non-empty string and
    [license_labels.get(resource)] otherwise, and a chosen license whose
    object is a known Creative Commons URI ends with both [content] (the
    label) and [resource] set. *)
Theorem content_resource_exclusive_except_license : forall gt res,
  let R := make_ResourceProperties gt res in
  Forall2 (fun p pred =>
      rp_resource p = node_resource (pred_object pred)
      /\ (rp_content p = node_content (pred_object pred)
          \/ (license_prop R = Some p
              /\ str_truthy (node_content (pred_object pred)) = false
              /\ rp_content p = license_labels_get (node_resource (pred_object pred)))))
    (properties R) (filter not_blank (predicates res))
  /\ (forall p, In p (properties R) -> license_prop R <> Some p ->
        rp_content p = None \/ rp_resource p = None)
  /\ (forall L, license_prop R = Some L ->
        In L (properties R)
        /\ exists pred, In pred (filter not_blank (predicates res))
           /\ rp_uri L = pred_uri_str pred
           /\ rp_resource L = node_resource (pred_object pred)
           /\ rp_content L = if str_truthy (node_content (pred_object pred))
                             then node_content (pred_object pred)
                             else license_labels_get (node_resource (pred_object pred)))
  /\ (forall L k v, license_prop R = Some L -> rp_resource L = Some k ->
        license_labels_get (Some k) = Some v ->
        In L (properties R) /\ rp_content L = Some v /\ rp_resource L = Some k).
Proof.
  intros gt res R.
  pose proof (properties_Forall2 gt res) as H. simpl in H. fold R in H.
  assert (H' : Forall2 (fun p pred =>
      rp_resource p = node_resource (pred_object pred)
      /\ (rp_content p = node_content (pred_object pred)
          \/ (license_prop R = Some p
              /\ str_truthy (node_content (pred_object pred)) = false
              /\ rp_content p = license_labels_get (node_resource (pred_object pred)))))
    (properties R) (filter not_blank (predicates res))).
  { induction H as [|p pred ps preds Hpp _ IH]; constructor; [|exact IH].
    destruct Hpp as [->|[Hl [Ht ->]]].
    - split; [reflexivity|left; reflexivity].
    - split; [reflexivity|right].
      refine (conj _ (conj Ht eq_refl)). exact Hl. }
  assert (HL : forall L, license_prop R = Some L -> In L (properties R))
    by (intros L HL; unfold license_prop in HL; eapply deref_In; exact HL).
  split; [exact H'|split; [|split]].
  - intros p Hp Hl.
    clear H HL. induction H' as [|q pred ps preds Hq _ IH]; [contradiction|].
    destruct Hp as [<-|Hp]; [|apply IH; exact Hp].
    destruct Hq as [Hr [Hc|[Hc _]]]; [|contradiction].
    rewrite Hr, Hc. destruct (pred_object pred); simpl; auto.
  - intros L Hl. split; [apply HL; exact Hl|].
    apply (license_from_loop gt res L Hl).
  - intros L k v Hl Hk Hv. split; [apply HL; exact Hl|].
    destruct (license_from_loop gt res L Hl) as [pred [_ [_ [Hr Hc]]]].
    split; [|exact Hk].
    rewrite Hc. rewrite Hk in Hr.
    destruct (pred_object pred) as [| w | u]; simpl in Hr; try discriminate.
    injection Hr as <-. simpl. exact Hv.
Qed.

Lemma content_resource_exclusive_except_license_witness :
  exists L, license_prop (make_ResourceProperties no_vocab by_sa_resource) = Some L
    /\ In L (properties (make_ResourceProperties no_vocab by_sa_resource))
    /\ rp_content L = Some "CC BY-SA 3.0" /\ rp_resource L = Some by_sa_url.
Proof.
  exists (mkResourceProperty dcterms_license (Some dcterms_license)
            (Some "CC BY-SA 3.0") (Some by_sa_url) None).
  split; [reflexivity|].
  exact (proj2 (proj2 (proj2 (content_resource_exclusive_except_license
                                no_vocab by_sa_resource)))
           _ by_sa_url "CC BY-SA 3.0" eq_refl eq_refl eq_refl).
Defined.

Lemma attribution_uri_not_license : forall u,
  u = cc_attributionURL \/ u = cc_attributionName ->
  u <> dcterms_license /\ u <> cc_license /\ u <> xhtml_license.
Proof.
  intros u [->| ->]; repeat split; apply String.eqb_neq; reflexivity.
Qed.

Lemma find_attribution_final : forall gt res u,
  u = cc_attributionURL \/ u = cc_attributionName ->
  find_property u (properties (make_ResourceProperties gt res))
  = find_property u (map (project_predicate gt) (filter not_blank (predicates res))).
Proof.
  intros gt res u Hu. destruct (attribution_uri_not_license u Hu) as [H1 [H2 H3]].
  destruct (make_fields gt res) as [Hp _]. rewrite Hp.
  apply license_backfill_find_other; assumption.
Qed.

(** A resource with [cc:attributionURL] pointing at [http://example.org/x]
    and [cc:attributionName] ["Jane"]. *)
Definition jane_resource : Resource :=
  mkResource "" [mkPredicate cc_ns "attributionURL" (ResourceNode "http://example.org/x");
                 mkPredicate cc_ns "attributionName" (LiteralNode "Jane")].

(** C3: the attribution is synthesized exactly when both a
    [cc:attributionURL] and a [cc:attributionName] property are present; it
    then takes the name's content, the URL's resource and [rel] =
    [cc:attributionURL] (for [jane_resource]: ["Jane"],
    [http://example.org/x]); without it, each raw attribution property that
    is present appears in the display list. *)
Theorem attribution_iff_both : forall gt res,
  let R := make_ResourceProperties gt res in
  let ps := properties R in
  (attribution R <> None <->
     find_property cc_attributionURL ps <> None /\ find_property cc_attributionName ps <> None)
  /\ (forall u n, find_property cc_attributionURL ps = Some u ->
        find_property cc_attributionName ps = Some n ->
        attribution R = Some (mkResourceProperty cc_attributionName (Some "Attribution")
                               (rp_content n) (rp_resource u) (Some cc_attributionURL)))
  /\ (attribution R = None -> forall p,
        find_property cc_attributionURL ps = Some p
        \/ find_property cc_attributionName ps = Some p ->
        In p (get_display_properties R))
  /\ attribution (make_ResourceProperties gt jane_resource)
     = Some (mkResourceProperty cc_attributionName (Some "Attribution") (Some "Jane")
               (Some "http://example.org/x") (Some cc_attributionURL)).
Proof.
  intros gt res. cbv zeta.
  assert (Ha : attribution (make_ResourceProperties gt res) =
     choose_attribution (map (project_predicate gt) (filter not_blank (predicates res))))
    by apply make_fields.
  split; [|split; [|split]].
  - rewrite (find_attribution_final gt res cc_attributionURL) by (left; reflexivity).
    rewrite (find_attribution_final gt res cc_attributionName) by (right; reflexivity).
    rewrite Ha. unfold choose_attribution.
    destruct (find_property cc_attributionURL _), (find_property cc_attributionName _);
      split; intros H; try (split; discriminate); try (exfalso; apply H; reflexivity);
      destruct H as [H1 H2]; try discriminate;
      (exfalso; (apply H1 || apply H2); reflexivity).
  - intros u n Hu Hn. rewrite Ha. unfold choose_attribution.
    rewrite <- (find_attribution_final gt res cc_attributionURL) by (left; reflexivity).
    rewrite <- (find_attribution_final gt res cc_attributionName) by (right; reflexivity).
    rewrite Hu, Hn. reflexivity.
  - intros Hn p Hp. unfold get_display_properties. rewrite Hn.
    apply in_or_app; right; apply in_or_app; left.
    destruct Hp as [Hp|Hp]; apply in_or_app; [left|right]; rewrite Hp; left; reflexivity.
  - reflexivity.
Qed.

(** A resource with a [cc:license] and, after it, a [dcterms:license]. *)
Definition two_licenses_resource : Resource :=
  mkResource "" [mkPredicate cc_ns "license"
                   (ResourceNode "http://creativecommons.org/licenses/by/3.0/");
                 mkPredicate dcterms_ns "license" (ResourceNode by_sa_url)].

(** C4: the license is the first [dcterms:license] property, else the first
    [cc:license], else the first [xhtml:license]; when the chosen property
    (as the predicate loop built it) has no truthy content, its content is
    replaced by [license_labels.get(resource)]; [dcterms:license] wins over
    an earlier [cc:license]; and [by_sa_resource] gets ["CC BY-SA 3.0"]. *)
Theorem license_priority_backfill : forall gt res,
  let R := make_ResourceProperties gt res in
  let ps := properties R in
  let ps0 := map (project_predicate gt) (filter not_blank (predicates res)) in
  license_prop R = match find_property dcterms_license ps with
                   | Some l => Some l
                   | None => match find_property cc_license ps with
                             | Some l => Some l
                             | None => find_property xhtml_license ps
                             end
                   end
  /\ license_prop R =
     match (match find_property dcterms_license ps0 with
            | Some l => Some l
            | None => match find_property cc_license ps0 with
                      | Some l => Some l
                      | None => find_property xhtml_license ps0
                      end
            end) with
     | Some l => Some (if str_truthy (rp_content l) then l
                       else set_content l (license_labels_get (rp_resource l)))
     | None => None
     end
  /\ option_map rp_uri (license_prop (make_ResourceProperties gt two_licenses_resource))
     = Some dcterms_license
  /\ option_map rp_content (license_prop (make_ResourceProperties gt by_sa_resource))
     = Some (Some "CC BY-SA 3.0").
Proof.
  intros gt res. cbv zeta.
  split; [apply license_prop_first|split; [apply license_prop_backfilled|]].
  split; rewrite license_prop_backfilled; reflexivity.
Qed.

(** C8: the display list is the title (first [dc:title], else first
    [dcterms:title]), then the attribution or, without it, the raw
    [cc:attributionURL] and [cc:attributionName] properties present, then
    the license (by its priority), then, in list order, every property whose
    URI is neither a header nor a technical one; the technical list is the
    properties whose URI is technical, in list order. *)
Theorem display_and_tech_properties : forall gt res,
  let R := make_ResourceProperties gt res in
  let ps := properties R in
  get_display_properties R =
    opt_list (match find_property dc_title ps with
              | Some t => Some t
              | None => find_property dcterms_title ps
              end)
    ++ (match attribution R with
        | Some a => [a]
        | None => opt_list (find_property cc_attributionURL ps)
                  ++ opt_list (find_property cc_attributionName ps)
        end)
    ++ opt_list (match find_property dcterms_license ps with
                 | Some l => Some l
                 | None => match find_property cc_license ps with
                           | Some l => Some l
                           | None => find_property xhtml_license ps
                           end
                 end)
    ++ filter (fun p => negb (str_in (rp_uri p) header_properties)
                        && negb (str_in (rp_uri p) tech_properties)) ps
  /\ get_tech_properties R = filter (fun p => str_in (rp_uri p) tech_properties) ps
  /\ (forall p, In p (get_tech_properties R) <->
        In p ps /\ str_in (rp_uri p) tech_properties = true).
Proof.
  intros gt res. cbv zeta. split; [|split].
  - unfold get_display_properties.
    rewrite title_prop_first, license_prop_first. reflexivity.
  - reflexivity.
  - intros p. unfold get_tech_properties. apply filter_In.
Qed.

(** ** Further properties of the module *)

(** [find_property] returns the first property of the URI, and [None] exactly
    when no property has it. *)
Theorem find_property_first : forall u ps p,
  (find_property u ps = Some p <->
     exists l1 l2, ps = l1 ++ p :: l2 /\ rp_uri p = u /\ Forall (fun q => rp_uri q <> u) l1)
  /\ (find_property u ps = None <-> Forall (fun q => rp_uri q <> u) ps).
Proof.
  intros u ps p. split.
  - split.
    + induction ps as [|q rest IH]; simpl; intros H; [discriminate|].
      destruct (String.eqb u (rp_uri q)) eqn:E.
      * injection H as <-. exists [], rest. apply String.eqb_eq in E. auto.
      * destruct (IH H) as [l1 [l2 [-> [Hu Hf]]]]. exists (q :: l1), l2.
        split; [reflexivity|split; [exact Hu|]]. constructor; [|exact Hf].
        intro Hq. rewrite Hq, String.eqb_refl in E. discriminate.
    + intros [l1 [l2 [-> [Hu Hf]]]]. induction Hf as [|q l1 Hq _ IH]; simpl.
      * rewrite Hu, String.eqb_refl. reflexivity.
      * destruct (String.eqb u (rp_uri q)) eqn:E; [|exact IH].
        apply String.eqb_eq in E. congruence.
  - split.
    + induction ps as [|q rest IH]; simpl; intros H; [constructor|].
      destruct (String.eqb u (rp_uri q)) eqn:E; [discriminate|].
      constructor; [|apply IH; exact H].
      intro Hq. rewrite Hq, String.eqb_refl in E. discriminate.
    + intros Hf. induction Hf as [|q rest Hq _ IH]; simpl; [reflexivity|].
      destruct (String.eqb u (rp_uri q)) eqn:E; [|exact IH].
      apply String.eqb_eq in E. congruence.
Qed.

Definition is_source_pred (pred : Predicate) : bool :=
  not_blank pred && str_in (pred_uri_str pred) source_properties.

Lemma init_loop_sources_eq : forall gt preds,
  snd (init_loop gt preds) = map pred_object (filter is_source_pred preds).
Proof.
  intros gt preds. induction preds as [|pred rest IH]; [reflexivity|]. simpl.
  destruct (init_loop gt rest) as [ps ss]. simpl in IH.
  unfold is_source_pred at 1, not_blank at 1.
  destruct (pred_object pred) eqn:Eo; simpl; rewrite IH; [reflexivity| |];
    match goal with |- context [if ?b then _ else _] => destruct b end;
    simpl; rewrite ?Eo; reflexivity.
Qed.

(** [get_sources()] is the objects, in predicate order, of the predicates
    whose URI is [dc:source] or [dcterms:source] and whose object is not a
    blank node. *)
Theorem get_sources_spec : forall gt res,
  get_sources (make_ResourceProperties gt res)
  = map pred_object
      (filter (fun pred => not_blank pred
                           && str_in (pred_uri_str pred) source_properties)
              (predicates res)).
Proof.
  intros gt res. unfold get_sources, make_ResourceProperties.
  pose proof (init_loop_sources_eq gt (predicates res)) as H.
  destruct (init_loop gt (predicates res)). exact H.
Qed.

Lemma assoc_get_In : forall k l v, assoc_get k l = Some v -> In (k, v) l.
Proof.
  intros k l. induction l as [|[k' v'] rest IH]; simpl; intros v H; [discriminate|].
  destruct (String.eqb k k') eqn:E.
  - injection H as <-. apply String.eqb_eq in E. subst. left. reflexivity.
  - right. apply IH. exact H.
Qed.

(** The license backfill changes only the content of the chosen license
    property: its URI, label and resource stay those of the property the
    predicate loop built, and its content stays the loop's content when that
    is a non-empty string, and otherwise becomes [None] or the label
    [license_labels] gives for its resource. *)
Theorem license_content_range : forall gt res L,
  license_prop (make_ResourceProperties gt res) = Some L ->
  exists l,
    In l (map (project_predicate gt) (filter not_blank (predicates res)))
    /\ rp_uri L = rp_uri l /\ rp_label L = rp_label l /\ rp_resource L = rp_resource l
    /\ ((str_truthy (rp_content l) = true /\ rp_content L = rp_content l)
        \/ (str_truthy (rp_content l) = false
            /\ (rp_content L = None
                \/ exists k v, rp_resource l = Some k /\ In (k, v) license_labels
                               /\ rp_content L = Some v))).
Proof.
  intros gt res L H. rewrite license_prop_backfilled in H.
  set (ps0 := map (project_predicate gt) (filter not_blank (predicates res))) in *.
  assert (Hin : forall l, (match find_property dcterms_license ps0 with
                           | Some l => Some l
                           | None => match find_property cc_license ps0 with
                                     | Some l => Some l
                                     | None => find_property xhtml_license ps0
                                     end
                           end) = Some l -> In l ps0).
  { intros l Hl.
    destruct (find_property dcterms_license ps0) eqn:E1;
      [injection Hl as <-; eapply find_property_In; exact E1|].
    destruct (find_property cc_license ps0) eqn:E2;
      [injection Hl as <-; eapply find_property_In; exact E2|].
    eapply find_property_In; exact Hl. }
  destruct (match find_property dcterms_license ps0 with
            | Some l => Some l
            | None => match find_property cc_license ps0 with
                      | Some l => Some l
                      | None => find_property xhtml_license ps0
                      end
            end) as [l|]; [|discriminate].
  injection H as <-. exists l. split; [apply Hin; reflexivity|].
  destruct (str_truthy (rp_content l)) eqn:Et.
  - repeat split; auto.
  - repeat split; [right; split; [reflexivity|]]. unfold set_content; cbn [rp_content].
    unfold license_labels_get. destruct (rp_resource l) as [k|]; [|left; reflexivity].
    destruct (assoc_get k license_labels) as [v|] eqn:Ev; [|left; reflexivity].
    right. exists k, v. split; [reflexivity|split; [apply assoc_get_In; exact Ev|reflexivity]].
Qed.

Lemma license_content_range_witness :
  license_prop (make_ResourceProperties no_vocab by_sa_resource)
    = Some (mkResourceProperty dcterms_license (Some dcterms_license)
              (Some "CC BY-SA 3.0") (Some by_sa_url) None)
  /\ exists l,
    In l (map (project_predicate no_vocab) (filter not_blank (predicates by_sa_resource)))
    /\ rp_uri (mkResourceProperty dcterms_license (Some dcterms_license)
                 (Some "CC BY-SA 3.0") (Some by_sa_url) None) = rp_uri l
    /\ True.
Proof.
  split; [reflexivity|].
  destruct (license_content_range no_vocab by_sa_resource
              (mkResourceProperty dcterms_license (Some dcterms_license)
                 (Some "CC BY-SA 3.0") (Some by_sa_url) None) eq_refl)
    as [l [Hl [Hu _]]].
  exists l. split; [exact Hl|split; [exact Hu|exact I]].
Defined.

Lemma process_blocks_work : forall gt f blocks work sp w' sp',
  process_blocks gt f blocks work sp = Some (Ok (w', sp')) ->
  w' = work ++ flat_map (block_work gt) blocks.
Proof.
  intros gt f blocks. induction blocks as [|g rest IH]; intros work sp w' sp' H;
    cbn [process_blocks] in H.
  - injection H as <- <-. rewrite app_nil_r. reflexivity.
  - destruct (drain gt f g _) as [[st|e]|]; try discriminate.
    rewrite (IH _ _ _ _ H). simpl. rewrite app_assoc. reflexivity.
Qed.

Lemma block_work_subjects : forall gt g,
  map subject_uri (block_work gt g) = filter is_about_image (map res_uri g).
Proof.
  intros gt g. unfold block_work. induction g as [|r rest IH]; [reflexivity|].
  simpl. destruct (is_about_image (res_uri r)); simpl; rewrite ?subject_uri_make, IH;
    reflexivity.
Qed.

Lemma flat_block_work_subjects : forall gt doc,
  map subject_uri (flat_map (block_work gt) doc)
  = flat_map (fun g => filter is_about_image (map res_uri g)) doc.
Proof.
  intros gt doc. induction doc as [|g rest IH]; [reflexivity|].
  simpl. rewrite map_app, block_work_subjects, IH. reflexivity.
Qed.

(** The work records [rdf_properties] returns are the projections of the
    resources whose subject URI is empty or starts with ['#'], block after
    block in document order and, within a block, in the parser's order. *)
Theorem work_props_subjects : forall gt fuel doc w s,
  rdf_properties gt fuel doc = Some (Ok (Some (w, s))) ->
  w = flat_map (block_work gt) doc
  /\ map subject_uri w = flat_map (fun g => filter is_about_image (map res_uri g)) doc.
Proof.
  intros gt fuel doc w s H.
  destruct doc as [|g rest]; [discriminate|]. unfold rdf_properties in H.
  destruct (process_blocks gt fuel (g :: rest) [] []) as [[[w' sp]|e]|] eqn:E;
    try discriminate.
  injection H as <- _. apply process_blocks_work in E. simpl in E. subst w'.
  split; [reflexivity|]. exact (flat_block_work_subjects gt (g :: rest)).
Qed.

Lemma work_props_subjects_witness :
  exists w s,
    rdf_properties no_vocab 2 (cycle_doc "http://example.org/original.svg")
      = Some (Ok (Some (w, s)))
    /\ map subject_uri w = [""].
Proof.
  eexists _, _. split; [reflexivity|].
  destruct (work_props_subjects no_vocab 2 (cycle_doc "http://example.org/original.svg")
              _ _ eq_refl) as [_ H].
  exact H.
Defined.

Lemma key_in_spec : forall u sp, key_in u sp = true <-> In u (map fst sp).
Proof.
  intros u sp. unfold key_in. rewrite existsb_exists. split.
  - intros [e [He Hu]]. apply String.eqb_eq in Hu. subst. apply in_map. exact He.
  - intros Hu. apply in_map_iff in Hu as [e [<- He]]. exists e.
    split; [exact He|apply String.eqb_refl].
Qed.

(** The dedup dictionary's keys are distinct, none is about this image, and
    each value is the projection of the resource of its key. *)
Definition sp_ok (sp : SourceProps) : Prop :=
  NoDup (map fst sp)
  /\ Forall (fun e => subject_uri (snd e) = fst e /\ is_about_image (fst e) = false) sp.

Lemma walk_iter_sp_ok : forall gt g st st',
  walk_iter gt g st = WalkNext st' -> sp_ok (source_props st) -> sp_ok (source_props st').
Proof.
  intros gt g [q sp] st' H [Hnd Hf]. unfold walk_iter in H. simpl in *.
  destruct q as [|s rest]; [discriminate|].
  destruct (node_uri s) as [u|e]; [|discriminate].
  destruct (is_about_image u) eqn:Ea; simpl in H;
    [injection H as <-; split; assumption|].
  destruct (key_in u sp) eqn:Ek; injection H as <-; simpl; [split; assumption|].
  split.
  - rewrite map_app. simpl. apply NoDup_app; [exact Hnd|repeat constructor; auto|].
    intros x Hx [<-|[]]. apply key_in_spec in Hx. congruence.
  - apply Forall_app. split; [exact Hf|]. constructor; [|constructor].
    split; [|exact Ea]. simpl. unfold project_node. apply subject_uri_make.
Qed.

Lemma drain_sp_ok : forall gt f g st st',
  drain gt f g st = Some (Ok st') -> sp_ok (source_props st) -> sp_ok (source_props st').
Proof.
  intros gt f g. induction f as [|f IH]; intros st st' H Hok; [discriminate|].
  simpl in H. destruct (walk_iter gt g st) as [|e|st''] eqn:E.
  - injection H as <-. exact Hok.
  - discriminate.
  - eapply IH; [exact H|]. eapply walk_iter_sp_ok; eassumption.
Qed.

Lemma process_blocks_sp_ok : forall gt f blocks work sp w' sp',
  process_blocks gt f blocks work sp = Some (Ok (w', sp')) -> sp_ok sp -> sp_ok sp'.
Proof.
  intros gt f blocks. induction blocks as [|g rest IH]; intros work sp w' sp' H Hok;
    cbn [process_blocks] in H.
  - injection H as <- <-. exact Hok.
  - destruct (drain gt f g _) as [[st|e]|] eqn:E; try discriminate.
    eapply IH; [exact H|]. eapply drain_sp_ok; [exact E|exact Hok].
Qed.

(** The source records [rdf_properties] returns have pairwise distinct
    subject URIs, and none of them is about this image (empty or starting
    with ['#']). *)
Theorem source_props_distinct : forall gt fuel doc w s,
  rdf_properties gt fuel doc = Some (Ok (Some (w, s))) ->
  NoDup (map subject_uri s) /\ Forall (fun u => is_about_image u = false) (map subject_uri s).
Proof.
  intros gt fuel doc w s H.
  destruct doc as [|g rest]; [discriminate|]. unfold rdf_properties in H.
  destruct (process_blocks gt fuel (g :: rest) [] []) as [[[w' sp]|e]|] eqn:E;
    try discriminate.
  injection H as _ <-.
  destruct (process_blocks_sp_ok _ _ _ _ _ _ _ E (conj (NoDup_nil _) (Forall_nil _)))
    as [Hnd Hf].
  assert (Hm : map subject_uri (map snd sp) = map fst sp).
  { clear Hnd E. induction Hf as [|e sp' [He _] _ IH]; [reflexivity|].
    simpl. rewrite He, IH. reflexivity. }
  rewrite Hm. split; [exact Hnd|].
  apply Forall_map. eapply Forall_impl; [|exact Hf]. intros e [_ Ha]. exact Ha.
Qed.

Lemma source_props_distinct_witness :
  exists w s,
    rdf_properties no_vocab 2 (cycle_doc "http://example.org/original.svg")
      = Some (Ok (Some (w, s)))
    /\ NoDup (map subject_uri s).
Proof.
  eexists _, _. split; [reflexivity|].
  destruct (source_props_distinct no_vocab 2 (cycle_doc "http://example.org/original.svg")
              _ _ eq_refl) as [H _].
  exact H.
Defined.

(** A source reference the walk has dealt with: a resource node whose URI is
    about this image or is a key of the dictionary. *)
Definition resolved (sp : SourceProps) (n : Node) : Prop :=
  exists u, n = ResourceNode u /\ (is_about_image u = true \/ key_in u sp = true).

Lemma key_in_app_mono : forall u sp x, key_in u sp = true -> key_in u (sp ++ x) = true.
Proof.
  intros u sp x H. unfold key_in in *. rewrite existsb_app, H. reflexivity.
Qed.

Lemma resolved_app : forall sp x n, resolved sp n -> resolved (sp ++ x) n.
Proof.
  intros sp x n [u [-> [Ha|Hk]]]; exists u; split; auto.
  right. apply key_in_app_mono. exact Hk.
Qed.

Definition srcs_of (new : SourceProps) : list Node :=
  flat_map (fun e => get_sources (snd e)) new.

Definition walk_inv gt (g : Graph) (q0 : list Node) (sp0 : SourceProps)
  (st : WalkState) : Prop :=
  exists new, source_props st = sp0 ++ new
    /\ Forall (fun e => snd e = project_node gt g (fst e)) new
    /\ forall n, In n (q0 ++ srcs_of new) ->
                 In n (source_res st) \/ resolved (source_props st) n.

Lemma walk_iter_inv : forall gt g q0 sp0 st st',
  walk_iter gt g st = WalkNext st' -> walk_inv gt g q0 sp0 st -> walk_inv gt g q0 sp0 st'.
Proof.
  intros gt g q0 sp0 [q sp] st' H [new [Hsp [Hf Hn]]]. simpl in *.
  unfold walk_iter in H. simpl in H.
  destruct q as [|s rest]; [discriminate|].
  destruct s as [| v | u]; simpl in H; try discriminate.
  destruct (is_about_image u || key_in u sp) eqn:Ed; injection H as <-; simpl.
  - exists new. split; [exact Hsp|split; [exact Hf|]].
    intros n Hin. destruct (Hn n Hin) as [[<-|Hq]|Hr]; [right|left; exact Hq|right; exact Hr].
    exists u. split; [reflexivity|]. apply orb_true_iff in Ed. exact Ed.
  - exists (new ++ [(u, project_node gt g u)]).
    split; [rewrite Hsp, app_assoc; reflexivity|].
    split; [apply Forall_app; split; [exact Hf|constructor; [reflexivity|constructor]]|].
    intros n Hin. unfold srcs_of in Hin. rewrite flat_map_app, app_assoc in Hin.
    apply in_app_or in Hin as [Hin|Hin].
    + destruct (Hn n Hin) as [[<-|Hq]|Hr].
      * right. exists u. split; [reflexivity|right; apply key_in_app_new].
      * left. apply in_or_app. left. exact Hq.
      * right. apply resolved_app. exact Hr.
    + simpl in Hin. rewrite app_nil_r in Hin. left. apply in_or_app. right. exact Hin.
Qed.

Lemma drain_inv : forall gt f g q0 sp0 st st',
  drain gt f g st = Some (Ok st') -> walk_inv gt g q0 sp0 st ->
  walk_inv gt g q0 sp0 st' /\ source_res st' = [].
Proof.
  intros gt f g q0 sp0. induction f as [|f IH]; intros st st' H Hinv; [discriminate|].
  simpl in H. destruct (walk_iter gt g st) as [|e|st''] eqn:E.
  - injection H as <-. split; [exact Hinv|].
    unfold walk_iter in E. destruct (source_res st) as [|s rest]; [reflexivity|].
    destruct (node_uri s); [destruct (_ || _)|]; discriminate.
  - discriminate.
  - eapply IH; [exact H|]. eapply walk_iter_inv; eassumption.
Qed.

(** When the walk of a block ends without raising, its queue is empty, every
    record it added to the dictionary is the projection, in that block, of the
    resource of its key, and every source reference of the seed queue and of
    the added records is a resource node whose URI is about this image or a
    key of the dictionary: the transitive closure of the source links. *)
Theorem walk_closure : forall gt f g q0 sp0 st,
  drain gt f g (mkWalkState q0 sp0) = Some (Ok st) ->
  source_res st = []
  /\ exists new, source_props st = sp0 ++ new
       /\ Forall (fun e => snd e = project_node gt g (fst e)) new
       /\ forall n, In n (q0 ++ srcs_of new) -> resolved (source_props st) n.
Proof.
  intros gt f g q0 sp0 st H.
  assert (H0 : walk_inv gt g q0 sp0 (mkWalkState q0 sp0)).
  { exists []. simpl. rewrite app_nil_r.
    split; [reflexivity|split; [constructor|]]. intros n Hn. left. rewrite app_nil_r in Hn. exact Hn. }
  destruct (drain_inv _ _ _ _ _ _ _ H H0) as [[new [Hsp [Hf Hn]]] Hq].
  split; [exact Hq|]. exists new. split; [exact Hsp|split; [exact Hf|]].
  intros n Hin. destruct (Hn n Hin) as [Hin'|Hr]; [rewrite Hq in Hin'; contradiction|exact Hr].
Qed.

Lemma walk_closure_witness :
  exists st,
    drain no_vocab 3 (cycle_block_A "http://example.org/original.svg")
      (mkWalkState [ResourceNode "http://example.org/original.svg"] []) = Some (Ok st)
    /\ source_res st = [].
Proof.
  eexists. split; [reflexivity|].
  exact (proj1 (walk_closure no_vocab 3 (cycle_block_A "http://example.org/original.svg")
                  [ResourceNode "http://example.org/original.svg"] [] _ eq_refl)).
Defined.

Lemma lookup_predicates_absent : forall g u,
  forallb (fun r => negb (String.eqb (res_uri r) u)) g = true ->
  lookup_predicates g u = [].
Proof.
  intros g u. induction g as [|r rest IH]; simpl; intros H; [reflexivity|].
  apply andb_true_iff in H as [Hr H]. apply negb_true_iff in Hr. rewrite Hr.
  apply IH. exact H.
Qed.

(** A source URI that block [g] does not describe as a subject (for example
    one described only in another block) is recorded with its URI and no
    properties, sources, title, attribution or license. *)
Theorem project_node_undescribed : forall gt g u,
  forallb (fun r => negb (String.eqb (res_uri r) u)) g = true ->
  project_node gt g u = mkResourceProperties u [] [] None None None.
Proof.
  intros gt g u H. unfold project_node. rewrite lookup_predicates_absent by exact H.
  reflexivity.
Qed.

Lemma project_node_undescribed_witness :
  forallb (fun r => negb (String.eqb (res_uri r) "http://example.org/original.svg"))
    (cycle_block_A "http://example.org/original.svg") = true
  /\ project_node no_vocab (cycle_block_A "http://example.org/original.svg")
       "http://example.org/original.svg"
     = mkResourceProperties "http://example.org/original.svg" [] [] None None None.
Proof.
  split; [reflexivity|]. apply project_node_undescribed. reflexivity.
Defined.

Lemma choose_title_valid : forall ps i,
  choose_title ps = Some i -> i < length ps.
Proof.
  intros ps i H. apply nth_error_Some. unfold choose_title in H.
  destruct (find_index dc_title ps) as [k|] eqn:E.
  - injection H as <-. destruct (find_index_spec _ _ _ E) as [p [Hp _]]. congruence.
  - destruct (find_index_spec _ _ _ H) as [p [Hp _]]. congruence.
Qed.

Lemma choose_license_valid : forall ps i,
  choose_license ps = Some i -> i < length ps.
Proof.
  intros ps i H. apply nth_error_Some.
  destruct (choose_license_uri _ _ H) as [l [Hl _]]. congruence.
Qed.

Lemma deref_app : forall ps ext r,
  (forall i, r = Some i -> i < length ps) -> deref (ps ++ ext) r = deref ps r.
Proof.
  intros ps ext [i|] H; [|reflexivity]. simpl. apply nth_error_app1. apply H. reflexivity.
Qed.

(** [add_remix_to_context] on a resolver result with work records
    [w0 :: rest] injects [w0] with the properties of all work records
    appended to its own, in order; since [w0]'s title and license refer to
    objects of its own list, they are unchanged by the merge. *)
Theorem merge_keeps_title_license : forall gt res rest s,
  let w0 := make_ResourceProperties gt res in
  add_remix_to_context (Some (w0 :: rest, s)) = Ok (Some (merge_work w0 rest, s))
  /\ properties (merge_work w0 rest) = properties w0 ++ concat (map properties rest)
  /\ title_prop (merge_work w0 rest) = title_prop w0
  /\ license_prop (merge_work w0 rest) = license_prop w0.
Proof.
  intros gt res rest s w0.
  destruct (make_fields gt res) as [Hp [Ht [_ Hl]]].
  assert (Hlen : length (properties w0)
                 = length (map (project_predicate gt) (filter not_blank (predicates res))))
    by (unfold w0; rewrite Hp; apply license_backfill_length).
  split; [reflexivity|split; [reflexivity|split]].
  - unfold title_prop, merge_work. simpl. apply deref_app.
    intros i Hi. rewrite Hlen. apply choose_title_valid. unfold w0 in Hi. congruence.
  - unfold license_prop, merge_work. simpl. apply deref_app.
    intros i Hi. rewrite Hlen. apply choose_license_valid. unfold w0 in Hi. congruence.
Qed.

(** No resource of block [g] that is about this image has a non-blank
    [dc:source] or [dcterms:source] predicate. *)
Definition work_without_sources (g : Graph) : bool :=
  forallb (fun r => negb (is_about_image (res_uri r))
                    || negb (existsb is_source_pred (predicates r))) g.

Lemma filter_existsb_false : forall (A : Type) (f : A -> bool) l,
  existsb f l = false -> filter f l = [].
Proof.
  intros A f l. induction l as [|x rest IH]; simpl; intros H; [reflexivity|].
  apply orb_false_iff in H as [Hx H]. rewrite Hx. apply IH. exact H.
Qed.

Lemma block_seed_empty : forall gt g,
  work_without_sources g = true ->
  concat (map get_sources (block_work gt g)) = [].
Proof.
  intros gt g. unfold work_without_sources, block_work.
  induction g as [|r rest IH]; simpl; intros H; [reflexivity|].
  apply andb_true_iff in H as [Hr H].
  destruct (is_about_image (res_uri r)) eqn:Ea; simpl in *; [|apply IH; exact H].
  rewrite get_sources_spec. fold is_source_pred.
  apply negb_true_iff in Hr. rewrite filter_existsb_false by exact Hr.
  simpl. apply IH. exact H.
Qed.

Lemma process_blocks_no_sources : forall gt f blocks work sp w' sp',
  forallb work_without_sources blocks = true ->
  process_blocks gt f blocks work sp = Some (Ok (w', sp')) -> sp' = sp.
Proof.
  intros gt f blocks. induction blocks as [|g rest IH]; intros work sp w' sp' Hb H;
    cbn [process_blocks] in H; simpl in Hb.
  - injection H as _ <-. reflexivity.
  - apply andb_true_iff in Hb as [Hg Hb].
    rewrite (block_seed_empty gt g Hg) in H.
    destruct (drain gt f g _) as [[st|e]|] eqn:E; try discriminate.
    apply drain_empty_queue in E. injection E as ->.
    exact (IH _ _ _ _ Hb H).
Qed.

(** When no resource that is about this image has a source predicate with a
    non-blank object, [rdf_properties] returns an empty source list: the walk
    is seeded only from the work records' sources. *)
Theorem no_work_sources_no_source_props : forall gt fuel doc w s,
  forallb work_without_sources doc = true ->
  rdf_properties gt fuel doc = Some (Ok (Some (w, s))) -> s = [].
Proof.
  intros gt fuel doc w s Hd H.
  destruct doc as [|g rest]; [discriminate|]. unfold rdf_properties in H.
  destruct (process_blocks gt fuel (g :: rest) [] []) as [[[w' sp]|e]|] eqn:E;
    try discriminate.
  injection H as _ <-. rewrite (process_blocks_no_sources _ _ _ _ _ _ _ Hd E). reflexivity.
Qed.

Lemma no_work_sources_no_source_props_witness :
  forallb work_without_sources [[jane_resource]] = true
  /\ exists w s, rdf_properties no_vocab 1 [[jane_resource]] = Some (Ok (Some (w, s)))
                 /\ s = [].
Proof.
  split; [reflexivity|]. eexists _, _. split; [reflexivity|].
  eapply (no_work_sources_no_source_props no_vocab 1 [[jane_resource]]);
    reflexivity.
Defined.











